(** * The agnpy tutorial notebooks: attenuation factors, opacities of
      several photon fields, the line table and particle distributions

    The notebooks are glue code around the [agnpy] library.  What they
    compute themselves are [numpy] array expressions over optical depths
    (notebook 5, section 5.3), sums and products of per-field arrays
    (sections 5.1 and 5.3) and look-ups in the shared line table.

    Conventions of the embedding:
    - a [numpy] array of floats is a [list R]; an element-wise operator is
      a [map] or a [zip_with]; rounding of IEEE doubles is not modelled;
    - a float division whose divisor is zero yields no finite number
      ([nan] or [inf] in [numpy]); it is [None] here;
    - a Python [dict] keyed by strings is a [gmap string _]; subscripting
      with an absent key raises [KeyError]. *)

From Stdlib Require Import Reals Lra Lia ZArith List Sorted.
From stdpp Require Import gmap strings.
Import ListNotations.
Local Open Scope R_scope.

(** * Definitions *)

(** ** [numpy] array expressions used by the notebooks *)

Module np.

(** unary minus, [-a] *)
Definition negative (a : list R) : list R := map Ropp a.

(** [np.exp(a)] *)
Definition exp (a : list R) : list R := map Rtrigo_def.exp a.

(** scalar minus array, [s - a]: the scalar is broadcast *)
Definition rsubtract (s : R) (a : list R) : list R :=
  map (fun x => s - x) a.

(** [a + b] and [a * b] on arrays of one shape *)
Definition add (a b : list R) : list R := zip_with Rplus a b.

Definition multiply (a b : list R) : list R := zip_with Rmult a b.

(** one float division: a zero divisor gives no finite number *)
Definition true_divide (x y : R) : option R :=
  if Req_dec_T y 0 then None else Some (x / y).

(** [a / b] on arrays of one shape *)
Definition divide (a b : list R) : list (option R) :=
  zip_with true_divide a b.

Definition zeros_like (a : list R) : list R := map (fun _ => 0) a.

Definition ones_like (a : list R) : list R := map (fun _ => 1) a.

(** [np.linspace(start, stop, num)]: [num] evenly spaced samples
    [start + i * step], with [step = (stop - start) / (num - 1)] *)
Definition linspace (start stop : R) (num : nat) : list R :=
  map (fun i : nat => start + INR i * ((stop - start) / INR (num - 1)))
      (seq 0 num).

(** [np.logspace(start, stop, num)] is [10 ** np.linspace(start, stop, num)] *)
Definition logspace (start stop : R) (num : nat) : list R :=
  map (Rpower 10) (linspace start stop num).

(** [num] when the call leaves it out *)
Definition default_num : nat := 50.

End np.

(** ** Notebook 5, section 5.3: the two attenuation factors

    [[
    taus=np.logspace(-1,1)
    plt.loglog(taus, np.exp(-taus), label="external")
    plt.loglog(taus, (1-np.exp(-taus))/taus, label="internal")
    ]] *)

Definition taus : list R := np.logspace (-1) 1 np.default_num.

(** [np.exp(-taus)] *)
Definition attenuation_external (taus : list R) : list R :=
  np.exp (np.negative taus).

(** [(1-np.exp(-taus))/taus] *)
Definition attenuation_internal (taus : list R) : list (option R) :=
  np.divide (np.rsubtract 1 (np.exp (np.negative taus))) taus.

(** The two factors at one optical depth: what the array expressions
    compute at each position. *)
Definition external_factor (tau : R) : R := exp (- tau).

Definition internal_factor (tau : R) : option R :=
  np.true_divide (1 - exp (- tau)) tau.

(** ** Notebook 5, sections 5.1 to 5.3: [Absorption] objects

    An [Absorption] object is built from a target (or a blob) and answers
    [tau(nu)] with the optical depths over a frequency array.  The opacity
    integral is the library's; the object carries it as a function of the
    frequency.  Section 5.3 states what the two attenuation methods
    return: [exp(-tau)] for [absorption], [(1 - exp(-tau)) / tau] for
    [absorption_homogeneous]. *)

Record Absorption := { opacity : R -> R }.

Definition tau (a : Absorption) (nu : list R) : list R :=
  map (opacity a) nu.

Definition absorption (a : Absorption) (nu : list R) : list R :=
  attenuation_external (tau a nu).

Definition absorption_homogeneous (a : Absorption) (nu : list R)
  : list (option R) :=
  attenuation_internal (tau a nu).

(** [tau_ext = tau_H_beta + tau_Ly_alpha + tau_H_alpha + tau_dt]: the
    per-field arrays are added from the left, the first one being the
    seed; for no field at all the total opacity is [np.zeros_like(nu)]. *)
Definition tau_ext (fields : list Absorption) (nu : list R) : list R :=
  match fields with
  | [] => np.zeros_like nu
  | a :: rest => fold_left (fun acc b => np.add acc (tau b nu)) rest (tau a nu)
  end.

(** [abs_ext = abs_H_beta.absorption(nu) * abs_Ly_alpha.absorption(nu) * ...]:
    the per-field factors are multiplied from the left. *)
Definition abs_ext (fields : list Absorption) (nu : list R) : list R :=
  match fields with
  | [] => np.ones_like nu
  | a :: rest =>
      fold_left (fun acc b => np.multiply acc (absorption b nu)) rest
                (absorption a nu)
  end.

(** ** Notebook 1, section 1.1: particle distributions

    [n(gamma) = k gamma^(-p) H(gamma; gamma_min, gamma_max)] is the one
    analytic form the notebook writes out; the broken power law, the log
    parabola and the interpolation are the library's and are taken as
    parameters. *)

Module spectra.

Inductive AnalyticForm : Type :=
| PowerLaw (k p : R)
| BrokenPowerLaw (k p1 p2 gamma_b : R)
| LogParabola (k p q gamma_0 : R)
| InterpolatedDistribution (gamma_0 n_0 : list R).

(** The closed forms that the sources do not spell out. *)
Record LibraryForms := {
  broken_power_law : R -> R -> R -> R -> R -> R;
  log_parabola : R -> R -> R -> R -> R -> R;
  interpolation : list R -> list R -> R -> R
}.

Definition analytic (lib : LibraryForms) (f : AnalyticForm) (gamma : R) : R :=
  match f with
  | PowerLaw k p => k * Rpower gamma (- p)
  | BrokenPowerLaw k p1 p2 gamma_b => broken_power_law lib k p1 p2 gamma_b gamma
  | LogParabola k p q gamma_0 => log_parabola lib k p q gamma_0 gamma
  | InterpolatedDistribution gamma_0 n_0 => interpolation lib gamma_0 n_0 gamma
  end.

(** [H(gamma; gamma_min, gamma_max)]: one on the closed range, null
    outside of it *)
Definition Heaviside (gamma gamma_min gamma_max : R) : R :=
  if Rle_dec gamma_min gamma
  then if Rle_dec gamma gamma_max then 1 else 0
  else 0.

Record ParticleDistribution := {
  form : AnalyticForm;
  gamma_min : R;
  gamma_max : R;
  mass : R
}.

Definition density (lib : LibraryForms) (n : ParticleDistribution) (gamma : R)
  : R :=
  analytic lib (form n) gamma * Heaviside gamma (gamma_min n) (gamma_max n).

(** Modelled from the spec: the evaluation [n(gamma)] of a particle
    distribution over an array of Lorentz factors, which [agnpy.spectra]
    implements and the notebooks only call: the selected analytic form at
    each value, null outside of [[gamma_min, gamma_max]]. *)
Definition evaluate (lib : LibraryForms) (n : ParticleDistribution)
  (gamma : list R) : list R :=
  map (density lib n) gamma.

End spectra.

(** ** Notebooks 2 and 5: the shared line table

    [[
    Ly_alpha = lines_dictionary["Lyalpha"]
    R_Ly_alpha = R_H_beta * Ly_alpha["R_Hbeta_ratio"]
    L_Ly_alpha = L_H_beta * Ly_alpha["L_Hbeta_ratio"]
    Ly_alpha_blr = SphericalShellBLR(L_Ly_alpha, 1, "Lyalpha", R_Ly_alpha)
    ]]

    The table is a dictionary of dictionaries; its entries are the
    library's data and stay a parameter of every statement. *)

Module targets.

Inductive PyResult (A : Type) : Type :=
| Ok (a : A)
| KeyError (key : string).

Arguments Ok {A} a.
Arguments KeyError {A} key.

(** [d[key]] *)
Definition getitem {V : Type} (d : gmap string V) (key : string) : PyResult V :=
  match d !! key with
  | Some v => Ok v
  | None => KeyError key
  end.

(** Computations that read the shared table and may raise. *)
Definition M (A : Type) : Type :=
  gmap string (gmap string R) -> PyResult A * gmap string (gmap string R).

Definition ret {A : Type} (a : A) : M A := fun t => (Ok a, t).

Definition bind {A B : Type} (m : M A) (k : A -> M B) : M B :=
  fun t =>
    match m t with
    | (Ok a, t') => k a t'
    | (KeyError key, t') => (KeyError key, t')
    end.

Definition lift {A : Type} (r : PyResult A) : M A := fun t => (r, t).

Notation "'let*' x ':=' m 'in' k" := (bind m (fun x => k))
  (at level 10, x name, m at level 100, k at level 200).

(** [lines_dictionary[name]] *)
Definition lines_dictionary_getitem (name : string) : M (gmap string R) :=
  fun t => (getitem t name, t).

(** Radius and luminosity of a shell from those of the H beta shell. *)
Definition scale_to_H_beta (name : string) (R_H_beta L_H_beta : R)
  : M (R * R) :=
  let* entry := lines_dictionary_getitem name in
  let* r := lift (getitem entry "R_Hbeta_ratio") in
  let* l := lift (getitem entry "L_Hbeta_ratio") in
  ret (R_H_beta * r, L_H_beta * l).

Record SphericalShellBLR := {
  L_disk : R;
  xi_line : R;
  line : string;
  line_entry : gmap string R;
  R_line : R
}.

(** Modelled from the spec: the constructor of the line region, which
    [agnpy.targets] implements and the notebooks only call: it keeps the
    disk luminosity, the reprocessed fraction, the line identity and the
    shell radius, resolves the line name in the shared table and fails
    at once on an unknown name. *)
Definition SphericalShellBLR_init (L_disk xi_line : R) (line : string)
  (R_line : R) : M SphericalShellBLR :=
  let* entry := lines_dictionary_getitem line in
  ret {| L_disk := L_disk; xi_line := xi_line; line := line;
         line_entry := entry; R_line := R_line |}.

(** The statements of the notebooks that touch the table. *)
Inductive Operation : Type :=
| Lookup (name : string)
| Scale (name : string) (R_H_beta L_H_beta : R)
| Shell (L_disk xi_line : R) (line : string) (R_line : R).

(** One statement: its value is dropped, the table is what it leaves. *)
Definition run (op : Operation) (t : gmap string (gmap string R))
  : gmap string (gmap string R) :=
  match op with
  | Lookup name => snd (lines_dictionary_getitem name t)
  | Scale name r l => snd (scale_to_H_beta name r l t)
  | Shell L xi name r => snd (SphericalShellBLR_init L xi name r t)
  end.

(** A session: a failing statement ends its cell, the kernel and the
    table live on. *)
Definition run_all (ops : list Operation) (t : gmap string (gmap string R))
  : gmap string (gmap string R) :=
  fold_left (fun t op => run op t) ops t.

End targets.

(** ** Notebook 1, section 1.1.1: the integral checks

    [[
    gamma = np.logspace(0, 7)
    integral = np.trapz(n_1(gamma), gamma)
    integral = m_e * c**2 * np.trapz(gamma * n_2(gamma), gamma)
    V_b = 4 / 3 * np.pi * (1e16 * u.cm) ** 3
    integral = V_b * m_e * c**2 * np.trapz(gamma * n_3(gamma), gamma)
    ]]

    The density arrays [n_i(gamma)] come from the library; the checks take
    them as arguments. *)

Module integrate.

(** [np.diff(x)], that is [x[1:] - x[:-1]] *)
Definition diff (x : list R) : list R := zip_with Rminus (tail x) x.

(** [y[1:] + y[:-1]] *)
Definition neighbour_sums (y : list R) : list R := zip_with Rplus (tail y) y.

(** [a * b] with the broadcasting of one-dimensional arrays: equal
    lengths multiply position by position, an array of length one is
    stretched over the other, any other pair of lengths raises
    [ValueError] *)
Definition broadcast_multiply (a b : list R) : option (list R) :=
  if Nat.eq_dec (length a) (length b) then Some (zip_with Rmult a b)
  else match a, b with
       | [s], _ => Some (map (Rmult s) b)
       | _, [s] => Some (map (fun v => v * s) a)
       | _, _ => None
       end.

(** [a.sum()] *)
Definition sum (a : list R) : R := fold_right Rplus 0 a.

(** [np.trapz(y, x)] is [(d * (y[1:] + y[:-1]) / 2.0).sum()] with
    [d = np.diff(x)] *)
Definition trapz (y x : list R) : option R :=
  match broadcast_multiply (diff x) (neighbour_sums y) with
  | Some p => Some (sum (map (fun v => v / 2) p))
  | None => None
  end.

(** The areas of the trapezoids between neighbouring samples, added up
    from the left: the closed form of [trapz] on arrays of one length. *)
Fixpoint trapezoids (y x : list R) {struct x} : R :=
  match x, y with
  | x0 :: xs, y0 :: ys =>
      match xs, ys with
      | x1 :: _, y1 :: _ => (x1 - x0) * (y1 + y0) / 2 + trapezoids ys xs
      | _, _ => 0
      end
  | _, _ => 0
  end.

(** [np.trapz(n_1(gamma), gamma)] *)
Definition total_density_check (n_gamma gamma : list R) : option R :=
  trapz n_gamma gamma.




End integrate.

(** ** Notebooks 3 and 4: columns of a loaded table

    [[
    data_ec_dt_finke = np.loadtxt(ec_dt_finke, delimiter=",")
    nu_ec_dt_finke = data_ec_dt_finke[:, 0] * u.Hz
    sed_ec_dt_finke = data_ec_dt_finke[:, 1] * u.Unit("erg cm-2 s-1")
    ]] *)

Module table.

(** What [np.loadtxt] hands over: an array of one dimension, or an array
    of two dimensions with its number of columns and its rows. *)
Inductive ndarray : Type :=
| array1 (values : list R)
| array2 (ncols : nat) (rows : list (list R)).

(** Every row of a two-dimensional array has [ncols] entries. *)
Definition rectangular (data : ndarray) : Prop :=
  match data with
  | array1 _ => True
  | array2 ncols rows => Forall (fun row => length row = ncols) rows
  end.

(** [data[:, j]] for [j >= 0]: [IndexError] on an array of one dimension
    (too many indices) and on a column index out of bounds *)
Definition column (data : ndarray) (j : nat) : option (list R) :=
  match data with
  | array1 _ => None
  | array2 ncols rows =>
      if (j <? ncols)%nat then mapM (fun row : list R => row !! j) rows
      else None
  end.

End table.

(** ** Data of the notebooks used to instantiate the statements *)

(** [n_p = PowerLaw(k=0.1, p=2.3, gamma_min=10, gamma_max=1e6, mass=m_p)] *)
Definition n_p (m_p : R) : spectra.ParticleDistribution :=
  {| spectra.form := spectra.PowerLaw 0.1 2.3;
     spectra.gamma_min := 10;
     spectra.gamma_max := 1000000;
     spectra.mass := m_p |}.

(** A library whose other closed forms are null; the power law does not
    use them. *)
Definition null_forms : spectra.LibraryForms :=
  {| spectra.broken_power_law := fun _ _ _ _ _ => 0;
     spectra.log_parabola := fun _ _ _ _ _ => 0;
     spectra.interpolation := fun _ _ _ => 0 |}.

(** The H beta shell is the reference of the table: its own ratios are 1. *)
Definition H_beta_entry : gmap string R :=
  {[ "R_Hbeta_ratio" := 1; "L_Hbeta_ratio" := 1 ]}.

Definition reference_table : gmap string (gmap string R) :=
  {[ "Hbeta" := H_beta_entry ]}.

(** ** Rational enclosures of [exp(-t)]

    Fixed-point brackets with denominator [scale], used to compare values
    of the exponential with decimal reference values. *)

Module Enclosure.

Definition scale : Z := (2 ^ 96)%Z.

Definition sq_lo (a : Z) : Z := (a * a / scale)%Z.

Definition sq_hi (a : Z) : Z := ((a * a + scale - 1) / scale)%Z.

Definition square (p : Z * Z) : Z * Z := (sq_lo (fst p), sq_hi (snd p)).

Fixpoint squarings (n : nat) (p : Z * Z) : Z * Z :=
  match n with
  | O => p
  | S n => squarings n (square p)
  end.

(** bracket of [exp(-(m/d))] from [1 - t <= exp(-t) <= 1 / (1 + t)] *)
Definition seed (m d : Z) : Z * Z :=
  ((scale * (d - m) / d)%Z, ((scale * d + (d + m) - 1) / (d + m))%Z).

Definition encloses (p : Z * Z) (v : R) : Prop :=
  IZR (fst p) / IZR scale <= v <= IZR (snd p) / IZR scale.

End Enclosure.

(** * Properties *)

(** ** The array expressions, position by position *)

Lemma attenuation_external_map (ts : list R) :
  attenuation_external ts = map external_factor ts.
Proof.
  unfold attenuation_external, np.exp, np.negative, external_factor.
  now rewrite map_map.
Qed.

Lemma attenuation_internal_map (ts : list R) :
  attenuation_internal ts = map internal_factor ts.
Proof.
  unfold attenuation_internal, np.divide, np.rsubtract, np.exp, np.negative.
  rewrite !map_map.
  induction ts as [|t ts IH]; simpl; [reflexivity|].
  now rewrite IH.
Qed.

Lemma internal_factor_pos (t : R) :
  0 < t -> internal_factor t = Some ((1 - exp (- t)) / t).
Proof.
  intros Ht. unfold internal_factor, np.true_divide.
  destruct (Req_dec_T t 0) as [E|_]; [lra|reflexivity].
Qed.

Lemma internal_factor_0 : internal_factor 0 = None.
Proof.
  unfold internal_factor, np.true_divide.
  destruct (Req_dec_T 0 0) as [_|N]; [reflexivity|now destruct N].
Qed.

(** ** Sum of opacities against product of transmitted fractions *)

Lemma attenuation_external_add (x y : list R) :
  attenuation_external (np.add x y)
  = np.multiply (attenuation_external x) (attenuation_external y).
Proof.
  rewrite !attenuation_external_map. unfold np.add, np.multiply.
  revert y. induction x as [|a x IH]; intros [|b y]; simpl; try reflexivity.
  rewrite IH. f_equal. unfold external_factor.
  rewrite <- exp_plus. f_equal. lra.
Qed.

Lemma attenuation_external_fold (nu : list R) (rest : list Absorption) :
  forall acc : list R,
    attenuation_external
      (fold_left (fun acc b => np.add acc (tau b nu)) rest acc)
    = fold_left (fun acc b => np.multiply acc (absorption b nu)) rest
                (attenuation_external acc).
Proof.
  induction rest as [|b rest IH]; intros acc; simpl; [reflexivity|].
  rewrite IH, attenuation_external_add. reflexivity.
Qed.

Lemma external_factor_sum (ts : list R) :
  external_factor (fold_right Rplus 0 ts)
  = fold_right Rmult 1 (map external_factor ts).
Proof.
  unfold external_factor.
  induction ts as [|t ts IH]; simpl.
  - rewrite Ropp_0. apply exp_0.
  - rewrite <- IH, <- exp_plus. f_equal. lra.
Qed.

(** C4: for every finite collection of external fields and every frequency
    array, [exp(-tau)] applied to the summed opacities [tau_ext] is the
    product [abs_ext] of the per-field transmitted fractions; at each
    frequency [exp(-(tau_1 + ... + tau_n)) = exp(-tau_1) * ... * exp(-tau_n)]. *)
Theorem sum_of_tau_is_product_of_absorption :
  forall (fields : list Absorption) (nu : list R),
    attenuation_external (tau_ext fields nu) = abs_ext fields nu
    /\ forall v : R,
        external_factor (fold_right Rplus 0 (map (fun a => opacity a v) fields))
        = fold_right Rmult 1
            (map (fun a => external_factor (opacity a v)) fields).
Proof.
  intros fields nu. split.
  - destruct fields as [|a rest]; simpl.
    + rewrite attenuation_external_map.
      unfold np.zeros_like, np.ones_like. rewrite map_map.
      apply map_ext. intros _. unfold external_factor.
      rewrite Ropp_0. apply exp_0.
    + apply attenuation_external_fold.
  - intros v. rewrite external_factor_sum, map_map. reflexivity.
Qed.

(** The four fields of section 5.1, as the notebook writes them. *)
Example four_fields (H_beta Ly_alpha H_alpha dt : Absorption) (nu : list R) :
  attenuation_external
    (np.add (np.add (np.add (tau H_beta nu) (tau Ly_alpha nu)) (tau H_alpha nu))
            (tau dt nu))
  = np.multiply
      (np.multiply (np.multiply (absorption H_beta nu) (absorption Ly_alpha nu))
                   (absorption H_alpha nu))
      (absorption dt nu).
Proof.
  rewrite !attenuation_external_add. reflexivity.
Qed.

(** ** The internal factor on positive optical depths *)

Lemma logspace_pos (start stop : R) (num : nat) :
  Forall (fun t => 0 < t) (np.logspace start stop num).
Proof.
  unfold np.logspace.
  induction (np.linspace start stop num) as [|y ys IH]; simpl;
    constructor; [unfold Rpower; apply exp_pos | exact IH].
Qed.

Lemma attenuation_internal_pos (ts : list R) :
  Forall (fun t => 0 < t) ts ->
  attenuation_internal ts = map (fun t => Some ((1 - exp (- t)) / t)) ts.
Proof.
  intros H. rewrite attenuation_internal_map.
  induction H as [|t ts Ht _ IH]; simpl; [reflexivity|].
  now rewrite IH, internal_factor_pos.
Qed.

Lemma exp_neg_lt_1 (t : R) : 0 < t -> exp (- t) < 1.
Proof.
  intros Ht. rewrite <- exp_0. apply exp_increasing. lra.
Qed.

Lemma internal_value_bounds (t : R) :
  0 < t -> 0 < (1 - exp (- t)) / t < / t.
Proof.
  intros Ht. pose proof (exp_neg_lt_1 t Ht) as H1.
  pose proof (exp_pos (- t)) as H0.
  pose proof (Rinv_0_lt_compat t Ht) as Hi.
  unfold Rdiv. split.
  - apply Rmult_lt_0_compat; lra.
  - rewrite <- (Rmult_1_l (/ t)) at 2.
    apply Rmult_lt_compat_r; lra.
Qed.

Lemma internal_value_limit_0 (eps : R) :
  0 < eps ->
  exists delta : R, 0 < delta /\
    forall t : R, 0 < t < delta -> Rabs ((1 - exp (- t)) / t - 1) < eps.
Proof.
  intros Heps.
  destruct (derivable_pt_lim_exp_0 eps Heps) as [delta Hd].
  exists delta. split; [apply cond_pos|].
  intros t [Ht0 Htd].
  assert (Hne : - t <> 0) by lra.
  assert (Habs : Rabs (- t) < delta).
  { rewrite Rabs_Ropp, Rabs_right; lra. }
  specialize (Hd (- t) Hne Habs).
  rewrite Rplus_0_l, exp_0 in Hd.
  replace ((1 - exp (- t)) / t - 1) with ((exp (- t) - 1) / - t - 1);
    [exact Hd|].
  field. lra.
Qed.

Lemma internal_value_limit_infty (eps : R) :
  0 < eps ->
  exists M : R, 0 < M /\
    forall t : R, M < t -> Rabs ((1 - exp (- t)) / t) < eps.
Proof.
  intros Heps. exists (/ eps). split; [now apply Rinv_0_lt_compat|].
  intros t Ht.
  assert (Hi : 0 < / eps) by now apply Rinv_0_lt_compat.
  assert (Ht0 : 0 < t) by lra.
  destruct (internal_value_bounds t Ht0) as [Hlo Hhi].
  rewrite Rabs_right; [|lra].
  apply Rlt_trans with (/ t); [exact Hhi|].
  rewrite <- (Rinv_inv eps). apply Rinv_lt_contravar; [|exact Ht].
  apply Rmult_lt_0_compat; lra.
Qed.

Lemma derivable_pt_lim_exp_neg (c : R) :
  derivable_pt_lim (fun t => exp (- t)) c (- exp (- c)).
Proof.
  replace (- exp (- c)) with (exp (- c) * - 1) by ring.
  apply (derivable_pt_lim_comp (opp_fct id) exp c (- 1) (exp (- c))).
  - apply derivable_pt_lim_opp, derivable_pt_lim_id.
  - apply derivable_pt_lim_exp.
Qed.

Lemma internal_value_decreasing (t1 t2 : R) :
  0 < t1 -> t1 < t2 ->
  (1 - exp (- t2)) / t2 < (1 - exp (- t1)) / t1.
Proof.
  intros H1 H12.
  destruct (MVT_cor2 (fun t => exp (- t)) (fun t => - exp (- t)) 0 t1 H1)
    as [c1 [E1 [Hc1a Hc1b]]].
  { intros c _. apply derivable_pt_lim_exp_neg. }
  destruct (MVT_cor2 (fun t => exp (- t)) (fun t => - exp (- t)) t1 t2 H12)
    as [c2 [E2 [Hc2a Hc2b]]].
  { intros c _. apply derivable_pt_lim_exp_neg. }
  simpl in E1, E2. rewrite Ropp_0, exp_0 in E1.
  assert (Hexp : exp (- c2) < exp (- c1)) by (apply exp_increasing; lra).
  assert (Ht2 : 0 < t2) by lra.
  apply Rmult_lt_reg_r with (t1 * t2); [apply Rmult_lt_0_compat; lra|].
  replace ((1 - exp (- t2)) / t2 * (t1 * t2)) with ((1 - exp (- t2)) * t1)
    by (field; lra).
  replace ((1 - exp (- t1)) / t1 * (t1 * t2)) with ((1 - exp (- t1)) * t2)
    by (field; lra).
  replace (1 - exp (- t1)) with (exp (- c1) * t1) by lra.
  replace (1 - exp (- t2)) with (exp (- c1) * t1 + exp (- c2) * (t2 - t1))
    by lra.
  assert (Hprod : 0 < t1 * (t2 - t1)) by (apply Rmult_lt_0_compat; lra).
  pose proof (Rmult_lt_compat_r _ _ _ Hprod Hexp) as Hlt.
  lra.
Qed.

(** ** Enclosures of the exponential *)

Import Enclosure.

Lemma scale_pos : (0 < scale)%Z.
Proof. reflexivity. Qed.

Lemma IZR_scale_pos : 0 < IZR scale.
Proof. apply IZR_lt, scale_pos. Qed.

Lemma floor_mul (a b : Z) : (0 < b)%Z -> (b * (a / b) <= a)%Z.
Proof. intros Hb. apply Z.mul_div_le, Hb. Qed.

Lemma ceil_mul (a b : Z) : (0 < b)%Z -> (a <= b * ((a + b - 1) / b))%Z.
Proof.
  intros Hb. pose proof (Z.mul_succ_div_gt (a + b - 1) b Hb). lia.
Qed.

Lemma div_le_of_mul (x b v : R) : 0 < b -> x <= v * b -> x / b <= v.
Proof.
  intros Hb H. apply Rmult_le_reg_r with b; [exact Hb|].
  unfold Rdiv. rewrite Rmult_assoc, Rinv_l; lra.
Qed.

Lemma le_div_of_mul (x b v : R) : 0 < b -> v * b <= x -> v <= x / b.
Proof.
  intros Hb H. apply Rmult_le_reg_r with b; [exact Hb|].
  unfold Rdiv. rewrite Rmult_assoc, Rinv_l; lra.
Qed.

Lemma square_encloses (p : Z * Z) (v : R) :
  (0 <= fst p)%Z -> encloses p v ->
  (0 <= fst (square p))%Z /\ encloses (square p) (v * v).
Proof.
  destruct p as [lo hi]. unfold encloses, square, sq_lo, sq_hi. cbn [fst snd].
  intros Hlo [Hl Hh].
  pose proof scale_pos as Hs. pose proof IZR_scale_pos as HS.
  assert (H0 : 0 <= IZR lo / IZR scale).
  { apply Rmult_le_pos; [now apply IZR_le|]. left. now apply Rinv_0_lt_compat. }
  split; [apply Z.div_pos; nia|]. split.
  - apply Rle_trans with (IZR lo / IZR scale * (IZR lo / IZR scale)).
    + apply div_le_of_mul; [exact HS|].
      pose proof (floor_mul (lo * lo) scale Hs) as Hf.
      apply IZR_le in Hf. rewrite !mult_IZR in Hf.
      replace (IZR lo / IZR scale * (IZR lo / IZR scale) * IZR scale)
        with (IZR lo * IZR lo / IZR scale) by (field; lra).
      apply le_div_of_mul; [exact HS|]. lra.
    + apply Rmult_le_compat; lra.
  - apply Rle_trans with (IZR hi / IZR scale * (IZR hi / IZR scale)).
    + apply Rmult_le_compat; lra.
    + apply le_div_of_mul; [exact HS|].
      pose proof (ceil_mul (hi * hi) scale Hs) as Hc.
      apply IZR_le in Hc. rewrite !mult_IZR in Hc.
      replace (IZR hi / IZR scale * (IZR hi / IZR scale) * IZR scale)
        with (IZR hi * IZR hi / IZR scale) by (field; lra).
      apply div_le_of_mul; [exact HS|]. lra.
Qed.

Lemma squarings_encloses (n : nat) :
  forall (p : Z * Z) (t : R),
    (0 <= fst p)%Z -> encloses p (exp (- t)) ->
    encloses (squarings n p) (exp (- (2 ^ n * t))).
Proof.
  induction n as [|n IH]; intros p t Hp He; simpl.
  - now rewrite Rmult_1_l.
  - destruct (square_encloses p _ Hp He) as [Hp' He'].
    rewrite <- exp_plus in He'.
    replace (- t + - t) with (- (2 * t)) in He' by lra.
    specialize (IH _ _ Hp' He').
    replace (2 * 2 ^ n * t) with (2 ^ n * (2 * t)) by ring.
    exact IH.
Qed.

Lemma seed_encloses (m d : Z) :
  (0 <= m < d)%Z ->
  (0 <= fst (seed m d))%Z /\ encloses (seed m d) (exp (- (IZR m / IZR d))).
Proof.
  intros [Hm Hd]. unfold encloses, seed. cbn [fst snd].
  pose proof scale_pos as Hs. pose proof IZR_scale_pos as HS.
  assert (Hd0 : (0 < d)%Z) by lia.
  assert (HD : 0 < IZR d) by now apply IZR_lt.
  assert (HM : 0 <= IZR m) by now apply IZR_le.
  set (t := IZR m / IZR d).
  assert (Ht : 0 <= t).
  { apply Rmult_le_pos; [exact HM|]. left. now apply Rinv_0_lt_compat. }
  split; [apply Z.div_pos; [apply Z.mul_nonneg_nonneg|]; lia|]. split.
  - apply Rle_trans with (1 - t).
    + apply div_le_of_mul; [exact HS|].
      pose proof (floor_mul (scale * (d - m)) d Hd0) as Hf.
      apply IZR_le in Hf. rewrite !mult_IZR, minus_IZR in Hf.
      apply Rmult_le_reg_r with (IZR d); [exact HD|].
      replace ((1 - t) * IZR scale * IZR d)
        with (IZR scale * (IZR d - IZR m)) by (unfold t; field; lra).
      lra.
    + pose proof (exp_ineq1_le (- t)). lra.
  - apply Rle_trans with (/ (1 + t)).
    + rewrite exp_Ropp. apply Rinv_le_contravar; [lra|].
      apply exp_ineq1_le.
    + apply le_div_of_mul; [exact HS|].
      assert (Hdm : (0 < d + m)%Z) by lia.
      pose proof (ceil_mul (scale * d) (d + m) Hdm) as Hc.
      apply IZR_le in Hc. rewrite !mult_IZR, plus_IZR in Hc.
      replace (/ (1 + t) * IZR scale)
        with (IZR scale * IZR d / (IZR d + IZR m)) by (unfold t; field; lra).
      apply Rmult_le_reg_r with (IZR d + IZR m); [lra|].
      unfold Rdiv. rewrite Rmult_assoc, Rinv_l; lra.
Qed.

Lemma encloses_decimal (p : Z * Z) (v : R) (a b c : Z) :
  encloses p v ->
  (0 < c)%Z ->
  (a * scale < fst p * c)%Z -> (snd p * c < b * scale)%Z ->
  IZR a / IZR c < v < IZR b / IZR c.
Proof.
  intros [Hl Hh] Hc Ha Hb.
  pose proof IZR_scale_pos as HS.
  assert (HC : 0 < IZR c) by now apply IZR_lt.
  apply IZR_lt in Ha, Hb. rewrite !mult_IZR in Ha, Hb.
  split.
  - apply Rlt_le_trans with (IZR (fst p) / IZR scale); [|exact Hl].
    apply Rmult_lt_reg_r with (IZR c * IZR scale);
      [apply Rmult_lt_0_compat; lra|].
    replace (IZR a / IZR c * (IZR c * IZR scale)) with (IZR a * IZR scale)
      by (field; lra).
    replace (IZR (fst p) / IZR scale * (IZR c * IZR scale))
      with (IZR (fst p) * IZR c) by (field; lra).
    exact Ha.
  - apply Rle_lt_trans with (IZR (snd p) / IZR scale); [exact Hh|].
    apply Rmult_lt_reg_r with (IZR c * IZR scale);
      [apply Rmult_lt_0_compat; lra|].
    replace (IZR b / IZR c * (IZR c * IZR scale)) with (IZR b * IZR scale)
      by (field; lra).
    replace (IZR (snd p) / IZR scale * (IZR c * IZR scale))
      with (IZR (snd p) * IZR c) by (field; lra).
    exact Hb.
Qed.


Lemma exp_bracket (m : Z) (k j : nat) :
  (0 <= m < 2 ^ Z.of_nat k)%Z ->
  encloses (squarings j (seed m (2 ^ Z.of_nat k)))
           (exp (- (2 ^ j * (IZR m / IZR (2 ^ Z.of_nat k))))).
Proof.
  intros Hm. destruct (seed_encloses m _ Hm) as [H0 He].
  exact (squarings_encloses j _ _ H0 He).
Qed.

Lemma exp_minus_half :
  606525 / 1000000 < external_factor (1 / 2) < 606535 / 1000000.
Proof.
  unfold external_factor.
  pose proof (exp_bracket 1 40 39 ltac:(lia)) as H.
  replace (2 ^ 39 * (IZR 1 / IZR (2 ^ Z.of_nat 40))) with (1 / 2) in H.
  2:{ change (2 ^ Z.of_nat 40)%Z with 1099511627776%Z. lra. }
  apply (encloses_decimal _ _ 606525 606535 1000000 H); vm_compute; reflexivity.
Qed.

Lemma exp_minus_1 : 367875 / 1000000 < external_factor 1 < 367885 / 1000000.
Proof.
  unfold external_factor.
  pose proof (exp_bracket 1 40 40 ltac:(lia)) as H.
  replace (2 ^ 40 * (IZR 1 / IZR (2 ^ Z.of_nat 40))) with 1 in H.
  2:{ change (2 ^ Z.of_nat 40)%Z with 1099511627776%Z. lra. }
  apply (encloses_decimal _ _ 367875 367885 1000000 H); vm_compute; reflexivity.
Qed.

Lemma exp_minus_5 : 6735 / 1000000 < external_factor 5 < 6740 / 1000000.
Proof.
  unfold external_factor.
  pose proof (exp_bracket 5 40 40 ltac:(lia)) as H.
  replace (2 ^ 40 * (IZR 5 / IZR (2 ^ Z.of_nat 40))) with 5 in H.
  2:{ change (2 ^ Z.of_nat 40)%Z with 1099511627776%Z. lra. }
  apply (encloses_decimal _ _ 6735 6740 1000000 H); vm_compute; reflexivity.
Qed.

Lemma exp_minus_10 :
  453995 / 10000000000 < external_factor 10 < 454005 / 10000000000.
Proof.
  unfold external_factor.
  pose proof (exp_bracket 10 40 40 ltac:(lia)) as H.
  replace (2 ^ 40 * (IZR 10 / IZR (2 ^ Z.of_nat 40))) with 10 in H.
  2:{ change (2 ^ Z.of_nat 40)%Z with 1099511627776%Z. lra. }
  apply (encloses_decimal _ _ 453995 454005 10000000000 H);
    vm_compute; reflexivity.
Qed.

(** * The claims *)

(** ** External attenuation *)

Lemma attenuation_external_lookup (ts : list R) (i : nat) (t : R) :
  ts !! i = Some t -> attenuation_external ts !! i = Some (exp (- t)).
Proof.
  intros H. rewrite attenuation_external_map, list_lookup_fmap, H.
  reflexivity.
Qed.

(** C2: on every array of optical depths [tau >= 0] the external
    attenuation [np.exp(-taus)] holds [exp(-tau)] at the position of each
    [tau]; at 0, 0.5, 1, 5 and 10 the values are 1 and, to the digits of the
    reference values, 0.6065, 0.3679, 0.0067 and 0.0000454. *)
Theorem external_attenuation_reference_values :
  (forall (ts : list R) (i : nat) (t : R),
      0 <= t -> ts !! i = Some t ->
      attenuation_external ts !! i = Some (exp (- t)))
  /\ attenuation_external [0; 0.5; 1; 5; 10]
     = [external_factor 0; external_factor 0.5; external_factor 1;
        external_factor 5; external_factor 10]
  /\ external_factor 0 = 1
  /\ Rabs (external_factor 0.5 - 0.6065) < 0.00005
  /\ Rabs (external_factor 1 - 0.3679) < 0.00005
  /\ Rabs (external_factor 5 - 0.0067) < 0.00005
  /\ Rabs (external_factor 10 - 0.0000454) < 0.00000005.
Proof.
  split; [intros ts i t _; apply attenuation_external_lookup|].
  split; [apply attenuation_external_map|].
  split; [unfold external_factor; rewrite Ropp_0; apply exp_0|].
  pose proof exp_minus_half as Hh. pose proof exp_minus_1 as H1.
  pose proof exp_minus_5 as H5. pose proof exp_minus_10 as H10.
  replace 0.5 with (1 / 2) by lra.
  repeat split; apply Rabs_def1; lra.
Qed.

Lemma external_attenuation_reference_values_witness :
  attenuation_external [0; 0.5; 1; 5; 10] !! 3%nat = Some (external_factor 5).
Proof.
  apply (proj1 external_attenuation_reference_values [0; 0.5; 1; 5; 10] 3%nat 5).
  - lra.
  - reflexivity.
Defined.

(** ** Internal attenuation *)

(** C1, as the code has it: for every optical depth [tau > 0] the internal
    attenuation [(1-np.exp(-taus))/taus] holds [(1 - exp(-tau)) / tau]; the
    grid [np.logspace(-1,1)] on which the notebook evaluates it has only
    positive values, so no division by zero happens there.  The expression
    has no case for [tau = 0]. *)
Theorem internal_attenuation_positive_depths :
  (forall t : R, 0 < t -> internal_factor t = Some ((1 - exp (- t)) / t))
  /\ (forall ts : list R,
        Forall (fun t => 0 < t) ts ->
        attenuation_internal ts = map (fun t => Some ((1 - exp (- t)) / t)) ts)
  /\ Forall (fun t => 0 < t) taus
  /\ attenuation_internal taus = map (fun t => Some ((1 - exp (- t)) / t)) taus.
Proof.
  split; [exact internal_factor_pos|].
  split; [exact attenuation_internal_pos|].
  split; [apply logspace_pos|].
  apply attenuation_internal_pos, logspace_pos.
Qed.

Lemma internal_attenuation_positive_depths_witness :
  internal_factor 1 = Some ((1 - exp (- 1)) / 1).
Proof.
  apply (proj1 internal_attenuation_positive_depths 1). lra.
Defined.

(** C1, as stated, fails at [tau = 0]: the division by zero is taken and
    the value is not the limit 1. *)
Lemma internal_attenuation_at_zero :
  0 <= 0
  /\ internal_factor 0 = None
  /\ internal_factor 0 <> Some 1
  /\ attenuation_internal [0] = [None].
Proof.
  split; [lra|]. split; [exact internal_factor_0|].
  split; [rewrite internal_factor_0; discriminate|].
  rewrite attenuation_internal_map. simpl. now rewrite internal_factor_0.
Qed.

(** C7: on [(0, infinity)] the internal attenuation factor tends to 1 as
    [tau] tends to 0, tends to 0 as [tau] tends to infinity, and strictly
    decreases: [0 < tau_1 < tau_2] gives
    [(1 - exp(-tau_1)) / tau_1 > (1 - exp(-tau_2)) / tau_2]. *)
Theorem internal_attenuation_limits_and_monotony :
  (forall eps : R, 0 < eps ->
     exists delta : R, 0 < delta /\
       forall t : R, 0 < t < delta ->
         exists v : R, internal_factor t = Some v /\ Rabs (v - 1) < eps)
  /\ (forall eps : R, 0 < eps ->
        exists M : R, 0 < M /\
          forall t : R, M < t ->
            exists v : R, internal_factor t = Some v /\ Rabs v < eps)
  /\ (forall t1 t2 : R, 0 < t1 -> t1 < t2 ->
        exists v1 v2 : R,
          internal_factor t1 = Some v1 /\ internal_factor t2 = Some v2
          /\ v1 = (1 - exp (- t1)) / t1 /\ v2 = (1 - exp (- t2)) / t2
          /\ v1 > v2).
Proof.
  split; [|split].
  - intros eps Heps.
    destruct (internal_value_limit_0 eps Heps) as [delta [Hd H]].
    exists delta. split; [exact Hd|]. intros t Ht.
    exists ((1 - exp (- t)) / t). split; [apply internal_factor_pos; lra|].
    now apply H.
  - intros eps Heps.
    destruct (internal_value_limit_infty eps Heps) as [M [HM H]].
    exists M. split; [exact HM|]. intros t Ht.
    exists ((1 - exp (- t)) / t). split; [apply internal_factor_pos; lra|].
    now apply H.
  - intros t1 t2 H1 H12.
    exists ((1 - exp (- t1)) / t1), ((1 - exp (- t2)) / t2).
    split; [apply internal_factor_pos; lra|].
    split; [apply internal_factor_pos; lra|].
    split; [reflexivity|]. split; [reflexivity|].
    now apply internal_value_decreasing.
Qed.

Lemma internal_attenuation_limits_and_monotony_witness :
  exists v1 v2 : R,
    internal_factor 1 = Some v1 /\ internal_factor 2 = Some v2
    /\ v1 = (1 - exp (- 1)) / 1 /\ v2 = (1 - exp (- 2)) / 2
    /\ v1 > v2.
Proof.
  apply (proj2 (proj2 internal_attenuation_limits_and_monotony) 1 2); lra.
Defined.

(** ** Particle distributions *)

Import spectra.

Lemma Heaviside_inside (g lo hi : R) : lo <= g <= hi -> Heaviside g lo hi = 1.
Proof.
  intros [H1 H2]. unfold Heaviside.
  destruct (Rle_dec lo g); [|contradiction].
  destruct (Rle_dec g hi); [reflexivity|contradiction].
Qed.

Lemma Heaviside_outside (g lo hi : R) :
  g < lo \/ hi < g -> Heaviside g lo hi = 0.
Proof.
  intros H. unfold Heaviside.
  destruct (Rle_dec lo g); [|reflexivity].
  destruct (Rle_dec g hi); [lra|reflexivity].
Qed.

(** C5: for every variant and every array of Lorentz factors, evaluating
    the distribution gives, at the position of each [gamma], the density of
    the selected analytic form when [gamma_min <= gamma <= gamma_max], and
    exactly zero when [gamma < gamma_min] or [gamma > gamma_max]. *)
Theorem evaluate_is_windowed_analytic_form
  (lib : LibraryForms) (n : ParticleDistribution) (gamma : list R)
  (i : nat) (g : R) :
  gamma !! i = Some g ->
  length (evaluate lib n gamma) = length gamma
  /\ exists v : R,
      evaluate lib n gamma !! i = Some v
      /\ (gamma_min n <= g <= gamma_max n -> v = analytic lib (form n) g)
      /\ (g < gamma_min n \/ gamma_max n < g -> v = 0).
Proof.
  intros Hg. unfold evaluate. split; [apply length_map|].
  exists (density lib n g). split.
  - rewrite list_lookup_fmap, Hg. reflexivity.
  - unfold density. split; intros H.
    + rewrite Heaviside_inside by exact H. ring.
    + rewrite Heaviside_outside by exact H. ring.
Qed.

Lemma evaluate_is_windowed_analytic_form_witness :
  length (evaluate null_forms (n_p 1) [1; 50]) = length [1; 50]
  /\ exists v : R,
      evaluate null_forms (n_p 1) [1; 50] !! 1%nat = Some v
      /\ (gamma_min (n_p 1) <= 50 <= gamma_max (n_p 1) ->
          v = analytic null_forms (form (n_p 1)) 50)
      /\ (50 < gamma_min (n_p 1) \/ gamma_max (n_p 1) < 50 -> v = 0).
Proof.
  apply (evaluate_is_windowed_analytic_form null_forms (n_p 1) [1; 50] 1%nat 50).
  reflexivity.
Defined.

(** ** The shared line table *)

Import targets.

Lemma lines_dictionary_getitem_reads (name : string)
  (t : gmap string (gmap string R)) :
  snd (lines_dictionary_getitem name t) = t.
Proof. reflexivity. Qed.

Lemma bind_reads {A B : Type} (m : M A) (k : A -> M B)
  (t : gmap string (gmap string R)) :
  snd (m t) = t -> (forall a, snd (k a t) = t) -> snd (bind m k t) = t.
Proof.
  intros Hm Hk. unfold bind.
  destruct (m t) as [[a|key] t'] eqn:E; simpl in Hm; subst t'.
  - apply Hk.
  - reflexivity.
Qed.

Lemma run_reads (op : Operation) (t : gmap string (gmap string R)) :
  run op t = t.
Proof.
  destruct op as [name|name r l|L xi name r]; simpl.
  - reflexivity.
  - unfold scale_to_H_beta.
    apply bind_reads; [reflexivity|]. intros entry.
    apply bind_reads; [reflexivity|]. intros x.
    apply bind_reads; [reflexivity|]. intros y. reflexivity.
  - unfold SphericalShellBLR_init.
    apply bind_reads; [reflexivity|]. intros entry. reflexivity.
Qed.

Lemma run_all_reads (ops : list Operation) (t : gmap string (gmap string R)) :
  run_all ops t = t.
Proof.
  unfold run_all. induction ops as [|op ops IH]; simpl; [reflexivity|].
  now rewrite run_reads.
Qed.

Lemma SphericalShellBLR_init_unknown (L xi r : R) (name : string)
  (t : gmap string (gmap string R)) :
  t !! name = None ->
  SphericalShellBLR_init L xi name r t = (KeyError name, t).
Proof.
  intros H.
  unfold SphericalShellBLR_init, bind, lines_dictionary_getitem, getitem.
  now rewrite H.
Qed.

Lemma SphericalShellBLR_init_known (L xi r : R) (name : string)
  (entry : gmap string R) (t : gmap string (gmap string R)) :
  t !! name = Some entry ->
  SphericalShellBLR_init L xi name r t
  = (Ok {| L_disk := L; xi_line := xi; line := name;
           line_entry := entry; R_line := r |}, t).
Proof.
  intros H.
  unfold SphericalShellBLR_init, bind, lines_dictionary_getitem, getitem, ret.
  now rewrite H.
Qed.

(** C8: subscripting the shared line table with a known name returns the
    entry of that name, whatever statements ran before; with a name that
    is not in the table it raises [KeyError], and so does the constructor
    of the line region; no statement changes the table. *)
Theorem line_table_lookup
  (lines_dictionary : gmap string (gmap string R)) (name : string) :
  (forall entry : gmap string R,
      lines_dictionary !! name = Some entry ->
      forall ops : list Operation,
        lines_dictionary_getitem name (run_all ops lines_dictionary)
        = (Ok entry, lines_dictionary))
  /\ (lines_dictionary !! name = None ->
      forall ops : list Operation,
        lines_dictionary_getitem name (run_all ops lines_dictionary)
        = (KeyError name, lines_dictionary)
        /\ forall L xi r : R,
            SphericalShellBLR_init L xi name r (run_all ops lines_dictionary)
            = (KeyError name, lines_dictionary))
  /\ (forall ops : list Operation, run_all ops lines_dictionary = lines_dictionary).
Proof.
  split; [|split].
  - intros entry H ops. rewrite run_all_reads.
    unfold lines_dictionary_getitem, getitem. now rewrite H.
  - intros H ops. rewrite run_all_reads. split.
    + unfold lines_dictionary_getitem, getitem. now rewrite H.
    + intros L xi r. now apply SphericalShellBLR_init_unknown.
  - intros ops. apply run_all_reads.
Qed.

Lemma line_table_lookup_witness :
  lines_dictionary_getitem "Hbeta"
    (run_all [Shell 1 1 "Hgamma" 1; Scale "Hbeta" 1 1] reference_table)
  = (Ok H_beta_entry, reference_table)
  /\ SphericalShellBLR_init 1 1 "Hgamma" 1
       (run_all [Lookup "Hbeta"] reference_table)
     = (KeyError "Hgamma", reference_table).
Proof.
  split.
  - apply (proj1 (line_table_lookup reference_table "Hbeta") H_beta_entry).
    reflexivity.
  - apply (proj2 (proj1 (proj2 (line_table_lookup reference_table "Hgamma"))
                    ltac:(reflexivity) [Lookup "Hbeta"])).
Defined.

(** * Further properties of the notebooks' code *)

(** ** The two attenuation factors compared *)



Lemma external_below_internal (t : R) :
  0 < t -> exp (- t) < (1 - exp (- t)) / t.
Proof.
  intros Ht.
  assert (Hne : t <> 0) by lra.
  pose proof (exp_ineq1 t Hne) as H1.
  pose proof (exp_pos (- t)) as He.
  assert (Hinv : exp (- t) * exp t = 1).
  { rewrite <- exp_plus. replace (- t + t) with 0 by lra. apply exp_0. }
  pose proof (Rmult_lt_compat_l _ _ _ He H1) as Hm.
  apply Rmult_lt_reg_r with t; [exact Ht|].
  replace ((1 - exp (- t)) / t * t) with (1 - exp (- t)) by (field; lra).
  lra.
Qed.

(** X1: at every frequency where the opacity is positive, the transmitted
    fraction of [absorption] (external field) is positive and strictly
    below that of [absorption_homogeneous] (internal field), which is
    itself strictly below 1. *)
Theorem external_fraction_below_internal
  (a : Absorption) (nu : list R) (i : nat) (v : R) :
  nu !! i = Some v -> 0 < opacity a v ->
  exists e h : R,
    absorption a nu !! i = Some e
    /\ absorption_homogeneous a nu !! i = Some (Some h)
    /\ 0 < e /\ e < h /\ h < 1.
Proof.
  intros Hv Hpos.
  exists (exp (- opacity a v)), ((1 - exp (- opacity a v)) / opacity a v).
  unfold absorption, absorption_homogeneous, tau.
  rewrite attenuation_external_map, attenuation_internal_map.
  rewrite !list_lookup_fmap, Hv. simpl.
  rewrite internal_factor_pos by exact Hpos.
  repeat split.
  - apply exp_pos.
  - now apply external_below_internal.
  - pose proof (internal_value_bounds _ Hpos) as [_ Hlt].
    pose proof (exp_neg_lt_1 _ Hpos) as H1.
    pose proof (exp_pos (- opacity a v)) as H0.
    apply Rmult_lt_reg_r with (opacity a v); [exact Hpos|].
    replace ((1 - exp (- opacity a v)) / opacity a v * opacity a v)
      with (1 - exp (- opacity a v)) by (field; lra).
    pose proof (exp_ineq1 (- opacity a v) ltac:(lra)). lra.
Qed.

Lemma external_fraction_below_internal_witness :
  exists e h : R,
    absorption {| opacity := fun v => v |} [1; 2] !! 1%nat = Some e
    /\ absorption_homogeneous {| opacity := fun v => v |} [1; 2] !! 1%nat
       = Some (Some h)
    /\ 0 < e /\ e < h /\ h < 1.
Proof.
  apply (external_fraction_below_internal {| opacity := fun v => v |}
           [1; 2] 1%nat 2).
  - reflexivity.
  - simpl. lra.
Defined.



(** ** The sampling grids *)

Lemma linspace_length (a b : R) (n : nat) : length (np.linspace a b n) = n.
Proof. unfold np.linspace. now rewrite length_map, length_seq. Qed.

Lemma linspace_lookup (a b : R) (n i : nat) :
  (i < n)%nat ->
  np.linspace a b n !! i = Some (a + INR i * ((b - a) / INR (n - 1))).
Proof.
  intros Hi. unfold np.linspace.
  rewrite list_lookup_fmap, lookup_seq_lt by exact Hi. reflexivity.
Qed.

Lemma linspace_step_pos (a b : R) (n : nat) :
  a < b -> (2 <= n)%nat -> 0 < (b - a) / INR (n - 1).
Proof.
  intros Hab Hn. apply Rdiv_lt_0_compat; [lra|].
  apply lt_0_INR. lia.
Qed.

Lemma linspace_last (a b : R) (n : nat) :
  (2 <= n)%nat -> a + INR (n - 1) * ((b - a) / INR (n - 1)) = b.
Proof.
  intros Hn. assert (0 < INR (n - 1)) by (apply lt_0_INR; lia).
  field. lra.
Qed.

Lemma linspace_range (a b : R) (n i : nat) :
  a <= b -> (i < n)%nat ->
  a <= a + INR i * ((b - a) / INR (n - 1)) <= b.
Proof.
  intros Hab Hi.
  destruct (Nat.eq_dec n 1%nat) as [->|Hn].
  - assert (i = 0)%nat as -> by lia. simpl. lra.
  - assert (Hp : 0 < INR (n - 1)) by (apply lt_0_INR; lia).
    assert (Hi0 : 0 <= INR i) by apply pos_INR.
    assert (Hi1 : INR i <= INR (n - 1)) by (apply le_INR; lia).
    assert (Hs : 0 <= (b - a) / INR (n - 1)).
    { apply Rmult_le_pos; [lra|]. left. now apply Rinv_0_lt_compat. }
    split.
    + pose proof (Rmult_le_pos _ _ Hi0 Hs). lra.
    + rewrite <- (linspace_last a b n) at 2 by lia.
      apply Rplus_le_compat_l, Rmult_le_compat_r; assumption.
Qed.

Lemma logspace_lookup (a b : R) (n i : nat) :
  (i < n)%nat ->
  np.logspace a b n !! i
  = Some (Rpower 10 (a + INR i * ((b - a) / INR (n - 1)))).
Proof.
  intros Hi. unfold np.logspace.
  rewrite list_lookup_fmap, linspace_lookup by exact Hi. reflexivity.
Qed.

Lemma logspace_length (a b : R) (n : nat) : length (np.logspace a b n) = n.
Proof. unfold np.logspace. now rewrite length_map, linspace_length. Qed.

(** X3: [np.logspace(start, stop, num)] has [num] samples; the first is
    [10^start] and, from two samples on, the last is [10^stop]; for
    [start < stop] the samples strictly increase, and for [start <= stop]
    every one lies between [10^start] and [10^stop]. *)
Theorem logspace_grid (start stop : R) (num : nat) :
  length (np.logspace start stop num) = num
  /\ ((1 <= num)%nat -> np.logspace start stop num !! 0%nat
                        = Some (Rpower 10 start))
  /\ ((2 <= num)%nat -> last (np.logspace start stop num)
                        = Some (Rpower 10 stop))
  /\ (start < stop ->
      forall (i j : nat) (x y : R),
        (i < j)%nat ->
        np.logspace start stop num !! i = Some x ->
        np.logspace start stop num !! j = Some y -> x < y)
  /\ (start <= stop ->
      forall (i : nat) (x : R),
        np.logspace start stop num !! i = Some x ->
        Rpower 10 start <= x <= Rpower 10 stop).
Proof.
  split; [apply logspace_length|].
  split; [|split; [|split]].
  - intros Hn. rewrite logspace_lookup by lia. simpl.
    do 2 f_equal. lra.
  - intros Hn. rewrite last_lookup, logspace_length.
    replace (Init.Nat.pred num) with (num - 1)%nat by lia.
    rewrite logspace_lookup by lia. now rewrite linspace_last.
  - intros Hab i j x y Hij Hx Hy.
    assert (Hj : (j < num)%nat).
    { apply lookup_lt_Some in Hy. now rewrite logspace_length in Hy. }
    rewrite logspace_lookup in Hx, Hy by lia.
    injection Hx as <-. injection Hy as <-.
    apply Rpower_lt; [lra|].
    pose proof (linspace_step_pos start stop num Hab ltac:(lia)) as Hs.
    assert (INR i < INR j) by (apply lt_INR; exact Hij).
    pose proof (Rmult_lt_compat_r _ _ _ Hs H). lra.
  - intros Hab i x Hx.
    assert (Hi : (i < num)%nat).
    { apply lookup_lt_Some in Hx. now rewrite logspace_length in Hx. }
    rewrite logspace_lookup in Hx by exact Hi. injection Hx as <-.
    destruct (linspace_range start stop num i Hab Hi) as [Hlo Hhi].
    split; apply Rle_Rpower; lra.
Qed.

Lemma logspace_grid_witness :
  np.logspace (-1) 1 50 !! 0%nat = Some (Rpower 10 (-1))
  /\ last (np.logspace (-1) 1 50) = Some (Rpower 10 1).
Proof.
  split.
  - apply (proj1 (proj2 (logspace_grid (-1) 1 50))). lia.
  - apply (proj1 (proj2 (proj2 (logspace_grid (-1) 1 50)))). lia.
Defined.

Lemma Rpower_10_m1 : Rpower 10 (-1) = 1 / 10.
Proof.
  replace (-1) with (- (1)) by lra.
  rewrite Rpower_Ropp, Rpower_1 by lra. lra.
Qed.

Lemma taus_range (i : nat) (t : R) : taus !! i = Some t -> 1 / 10 <= t <= 10.
Proof.
  intros H. unfold taus in H.
  destruct (proj2 (proj2 (proj2 (proj2 (logspace_grid (-1) 1 np.default_num))))
              ltac:(lra) i t H) as [Hlo Hhi].
  rewrite Rpower_10_m1 in Hlo. rewrite Rpower_1 in Hhi by lra.
  split; assumption.
Qed.

(** X4: the grid [taus] of section 5.3 runs from 0.1 to 10, and at each of
    its values both plotted curves lie inside the window
    [plt.ylim([3e-5, 1.1])]: the external factor is above [3e-5], the
    internal one lies between the external one and [1.1]. *)
Theorem taus_curves_inside_plot_window :
  taus !! 0%nat = Some (1 / 10)
  /\ last taus = Some 10
  /\ forall (i : nat) (t : R),
      taus !! i = Some t ->
      1 / 10 <= t <= 10
      /\ exists e h : R,
          attenuation_external taus !! i = Some e
          /\ attenuation_internal taus !! i = Some (Some h)
          /\ 3 / 100000 < e /\ e < h /\ h < 11 / 10.
Proof.
  split; [|split].
  - unfold taus.
    rewrite (proj1 (proj2 (logspace_grid (-1) 1 np.default_num)))
      by (unfold np.default_num; lia).
    now rewrite Rpower_10_m1.
  - unfold taus.
    rewrite (proj1 (proj2 (proj2 (logspace_grid (-1) 1 np.default_num))))
      by (unfold np.default_num; lia).
    now rewrite Rpower_1 by lra.
  - intros i t Ht. pose proof (taus_range i t Ht) as Hr.
    split; [exact Hr|].
    assert (Hpos : 0 < t) by lra.
    exists (exp (- t)), ((1 - exp (- t)) / t).
    rewrite attenuation_external_map, attenuation_internal_map.
    rewrite !list_lookup_fmap, Ht. simpl.
    rewrite internal_factor_pos by exact Hpos.
    split; [reflexivity|]. split; [reflexivity|].
    pose proof exp_minus_10 as H10.
    assert (Hmono : external_factor 10 <= exp (- t)).
    { destruct (Req_dec_T t 10) as [->|Hne]; [right; reflexivity|].
      left. unfold external_factor. apply exp_increasing. lra. }
    pose proof (external_below_internal t Hpos) as Hlt.
    pose proof (exp_ineq1 (- t) ltac:(lra)) as Hin.
    split; [lra|]. split; [exact Hlt|].
    apply Rlt_trans with 1; [|lra].
    apply Rmult_lt_reg_r with t; [exact Hpos|].
    replace ((1 - exp (- t)) / t * t) with (1 - exp (- t)) by (field; lra).
    lra.
Qed.

Lemma taus_curves_inside_plot_window_witness :
  1 / 10 <= 1 / 10 <= 10
  /\ exists e h : R,
      attenuation_external taus !! 0%nat = Some e
      /\ attenuation_internal taus !! 0%nat = Some (Some h)
      /\ 3 / 100000 < e /\ e < h /\ h < 11 / 10.
Proof.
  apply (proj2 (proj2 taus_curves_inside_plot_window) 0%nat (1 / 10)).
  exact (proj1 taus_curves_inside_plot_window).
Defined.

(** ** Several external fields *)

Lemma zip_with_map_same {A : Type} (f : R -> R -> R) (g h : A -> R)
  (l : list A) :
  zip_with f (map g l) (map h l) = map (fun v => f (g v) (h v)) l.
Proof.
  induction l as [|v l IH]; simpl; [reflexivity|]. now rewrite IH.
Qed.

Lemma tau_fold_map (nu : list R) (rest : list Absorption) :
  forall F : R -> R,
    fold_left (fun acc b => np.add acc (tau b nu)) rest (map F nu)
    = map (fun v => F v + fold_right Rplus 0 (map (fun a => opacity a v) rest))
          nu.
Proof.
  induction rest as [|b rest IH]; intros F; simpl.
  - apply map_ext. intros v. lra.
  - unfold np.add at 2, tau at 2. rewrite zip_with_map_same, IH.
    apply map_ext. intros v. lra.
Qed.

Lemma tau_ext_map (fields : list Absorption) (nu : list R) :
  tau_ext fields nu
  = map (fun v => fold_right Rplus 0 (map (fun a => opacity a v) fields)) nu.
Proof.
  destruct fields as [|a rest]; simpl; [reflexivity|].
  unfold tau at 2. apply tau_fold_map.
Qed.

Lemma abs_ext_map (fields : list Absorption) (nu : list R) :
  abs_ext fields nu
  = map (fun v =>
           external_factor
             (fold_right Rplus 0 (map (fun a => opacity a v) fields))) nu.
Proof.
  transitivity (attenuation_external (tau_ext fields nu)).
  - destruct fields as [|a rest]; simpl.
    + rewrite attenuation_external_map.
      unfold np.zeros_like, np.ones_like. rewrite map_map.
      apply map_ext. intros _. unfold external_factor.
      rewrite Ropp_0. symmetry. apply exp_0.
    + symmetry. apply attenuation_external_fold.
  - rewrite tau_ext_map, attenuation_external_map, map_map. reflexivity.
Qed.

Lemma sum_permutation (l1 l2 : list R) :
  Permutation l1 l2 -> fold_right Rplus 0 l1 = fold_right Rplus 0 l2.
Proof.
  induction 1 as [|x l1 l2 _ IH|x y l|l1 l2 l3 _ IH1 _ IH2]; simpl.
  - reflexivity.
  - now rewrite IH.
  - lra.
  - now rewrite IH1.
Qed.

Lemma sum_nonneg (l : list R) :
  Forall (fun x => 0 <= x) l -> 0 <= fold_right Rplus 0 l.
Proof.
  induction 1 as [|x l Hx _ IH]; simpl; lra.
Qed.

Lemma sum_ge_member (l : list R) (x : R) :
  Forall (fun y => 0 <= y) l -> In x l -> x <= fold_right Rplus 0 l.
Proof.
  induction 1 as [|y l Hy Hl IH]; simpl; [contradiction|].
  intros [->|Hin].
  - pose proof (sum_nonneg l Hl). lra.
  - specialize (IH Hin). lra.
Qed.

(** X5: the total opacity [tau_ext] and the total transmitted fraction
    [abs_ext] hold, at the position of each frequency, the sum of the
    per-field opacities and [exp] of minus that sum; they are as long as
    the frequency array and do not depend on the order in which the
    fields are combined. *)
Theorem total_external_pointwise_and_order
  (fields : list Absorption) (nu : list R) :
  length (tau_ext fields nu) = length nu
  /\ length (abs_ext fields nu) = length nu
  /\ (forall (i : nat) (v : R),
        nu !! i = Some v ->
        tau_ext fields nu !! i
        = Some (fold_right Rplus 0 (map (fun a => opacity a v) fields))
        /\ abs_ext fields nu !! i
           = Some (exp (- fold_right Rplus 0
                                     (map (fun a => opacity a v) fields))))
  /\ (forall fields' : list Absorption,
        Permutation fields fields' ->
        tau_ext fields nu = tau_ext fields' nu
        /\ abs_ext fields nu = abs_ext fields' nu).
Proof.
  rewrite tau_ext_map, abs_ext_map.
  split; [apply length_map|]. split; [apply length_map|]. split.
  - intros i v Hv. rewrite !list_lookup_fmap, Hv. split; reflexivity.
  - intros fields' Hp. rewrite tau_ext_map, abs_ext_map.
    split; apply map_ext; intros v.
    + apply sum_permutation, Permutation_map, Hp.
    + f_equal. apply sum_permutation, Permutation_map, Hp.
Qed.

Lemma total_external_pointwise_and_order_witness :
  tau_ext [ {| opacity := fun v => v |}; {| opacity := fun v => 2 * v |} ] [1]
  = tau_ext [ {| opacity := fun v => 2 * v |}; {| opacity := fun v => v |} ] [1]
  /\ abs_ext [ {| opacity := fun v => v |}; {| opacity := fun v => 2 * v |} ] [1]
     = abs_ext [ {| opacity := fun v => 2 * v |}; {| opacity := fun v => v |} ]
         [1].
Proof.
  apply (proj2 (proj2 (proj2 (total_external_pointwise_and_order
           [ {| opacity := fun v => v |}; {| opacity := fun v => 2 * v |} ]
           [1])))).
  apply perm_swap.
Defined.

(** X6: where no field has a negative opacity, the total opacity is at
    least the opacity of each single field, and the total transmitted
    fraction is positive, at most the fraction of each single field and at
    most 1. *)
Theorem total_external_dominates_each_field
  (fields : list Absorption) (nu : list R) (a : Absorption) (i : nat)
  (v : R) :
  In a fields -> nu !! i = Some v ->
  Forall (fun b => 0 <= opacity b v) fields ->
  exists t T e E : R,
    tau a nu !! i = Some t /\ tau_ext fields nu !! i = Some T
    /\ absorption a nu !! i = Some e /\ abs_ext fields nu !! i = Some E
    /\ 0 <= t <= T /\ 0 < E <= e /\ e <= 1.
Proof.
  intros Ha Hv Hpos.
  set (T := fold_right Rplus 0 (map (fun b => opacity b v) fields)).
  exists (opacity a v), T, (exp (- opacity a v)), (exp (- T)).
  assert (Hall : Forall (fun y => 0 <= y) (map (fun b => opacity b v) fields)).
  { clear Ha. induction Hpos; simpl; constructor; auto. }
  assert (Hin : In (opacity a v) (map (fun b => opacity b v) fields)).
  { apply in_map_iff. exists a. split; [reflexivity|exact Ha]. }
  pose proof (sum_ge_member _ _ Hall Hin) as HT. fold T in HT.
  assert (Ht0 : 0 <= opacity a v).
  { rewrite Forall_forall in Hpos. apply Hpos, list_elem_of_In, Ha. }
  rewrite tau_ext_map, abs_ext_map. unfold absorption, tau.
  rewrite attenuation_external_map, !list_lookup_fmap, Hv. simpl.
  repeat split; try assumption.
  - apply exp_pos.
  - destruct HT as [HT|HT].
    + left. apply exp_increasing. lra.
    + right. unfold external_factor. now rewrite HT.
  - destruct Ht0 as [H0|H0].
    + left. now apply exp_neg_lt_1.
    + right. rewrite <- H0, Ropp_0. apply exp_0.
Qed.

Lemma total_external_dominates_each_field_witness :
  exists t T e E : R,
    tau {| opacity := fun v => v |} [1] !! 0%nat = Some t
    /\ tau_ext [ {| opacity := fun v => 2 * v |}; {| opacity := fun v => v |} ]
         [1] !! 0%nat = Some T
    /\ absorption {| opacity := fun v => v |} [1] !! 0%nat = Some e
    /\ abs_ext [ {| opacity := fun v => 2 * v |}; {| opacity := fun v => v |} ]
         [1] !! 0%nat = Some E
    /\ 0 <= t <= T /\ 0 < E <= e /\ e <= 1.
Proof.
  apply (total_external_dominates_each_field
           [ {| opacity := fun v => 2 * v |}; {| opacity := fun v => v |} ]
           [1] {| opacity := fun v => v |} 0%nat 1).
  - right. left. reflexivity.
  - reflexivity.
  - repeat constructor; simpl; lra.
Defined.

(** ** Ratios of the line table *)



(** ** The integral checks *)

Lemma diff_length (x : list R) :
  length (integrate.diff x) = Nat.pred (length x).
Proof.
  unfold integrate.diff. rewrite length_zip_with.
  destruct x as [|x0 xs]; simpl; lia.
Qed.

Lemma neighbour_sums_length (y : list R) :
  length (integrate.neighbour_sums y) = Nat.pred (length y).
Proof.
  unfold integrate.neighbour_sums. rewrite length_zip_with.
  destruct y as [|y0 ys]; simpl; lia.
Qed.

Lemma trapezoids_sum (x : list R) :
  forall y : list R,
    length y = length x ->
    integrate.sum
      (map (fun v => v / 2)
           (zip_with Rmult (integrate.diff x) (integrate.neighbour_sums y)))
    = integrate.trapezoids y x.
Proof.
  induction x as [|x0 xs IH]; intros [|y0 ys] Hlen; simpl in Hlen;
    try discriminate; [reflexivity|].
  destruct xs as [|x1 xs]; destruct ys as [|y1 ys]; simpl in Hlen;
    try discriminate; [reflexivity|].
  specialize (IH (y1 :: ys) ltac:(simpl; lia)).
  change (integrate.trapezoids (y0 :: y1 :: ys) (x0 :: x1 :: xs))
    with ((x1 - x0) * (y1 + y0) / 2
          + integrate.trapezoids (y1 :: ys) (x1 :: xs)).
  rewrite <- IH. reflexivity.
Qed.

Lemma trapz_same_length (y x : list R) :
  length y = length x -> integrate.trapz y x = Some (integrate.trapezoids y x).
Proof.
  intros Hlen. unfold integrate.trapz, integrate.broadcast_multiply.
  destruct (Nat.eq_dec _ _) as [_|N].
  - now rewrite trapezoids_sum.
  - rewrite diff_length, neighbour_sums_length, Hlen in N. now destruct N.
Qed.

(** X8: [np.trapz(y, x)] on arrays of one length returns a number, which
    is 0 when there is at most one sample; on arrays of different lengths
    it raises, unless one of them has exactly two samples (or both have at
    most one), in which case the single interval is broadcast. *)
Theorem trapz_shapes (y x : list R) :
  (length y = length x -> exists v : R, integrate.trapz y x = Some v)
  /\ ((length x <= 1)%nat -> (length y <= 1)%nat ->
      integrate.trapz y x = Some 0)
  /\ (Nat.pred (length x) <> Nat.pred (length y) ->
      length x <> 2%nat -> length y <> 2%nat ->
      integrate.trapz y x = None)
  /\ (forall x0 x1 : R, x = [x0; x1] ->
      integrate.trapz y x
      = Some (integrate.sum
                (map (fun s => (x1 - x0) * s / 2) (integrate.neighbour_sums y)))).
Proof.
  split; [|split; [|split]].
  - intros H. eexists. now apply trapz_same_length.
  - intros Hx Hy.
    destruct x as [|x0 [|x1 xs]]; destruct y as [|y0 [|y1 ys]];
      simpl in Hx, Hy; try lia; reflexivity.
  - intros Hp Hx Hy. unfold integrate.trapz, integrate.broadcast_multiply.
    destruct (Nat.eq_dec _ _) as [E|_].
    + rewrite diff_length, neighbour_sums_length in E. contradiction.
    + pose proof (diff_length x) as Hd.
      pose proof (neighbour_sums_length y) as Hn.
      destruct (integrate.diff x) as [|d0 [|d1 ds]];
        destruct (integrate.neighbour_sums y) as [|n0 [|n1 ns]];
        simpl in Hd, Hn; try reflexivity; lia.
  - intros x0 x1 ->. unfold integrate.trapz, integrate.broadcast_multiply.
    change (integrate.diff [x0; x1]) with [x1 - x0].
    destruct (Nat.eq_dec _ _) as [E|_].
    + destruct (integrate.neighbour_sums y) as [|n0 [|n1 ns]];
        simpl in E; try discriminate. reflexivity.
    + destruct (integrate.neighbour_sums y) as [|n0 ns]; [reflexivity|].
      rewrite map_map. reflexivity.
Qed.

Lemma trapz_shapes_witness : integrate.trapz [1; 2; 3; 4] [0; 1; 2] = None.
Proof.
  apply (proj1 (proj2 (proj2 (trapz_shapes [1; 2; 3; 4] [0; 1; 2]))));
    simpl; lia.
Defined.










Lemma trapezoids_zeros (x : list R) :
  integrate.trapezoids (map (fun _ => 0) x) x = 0.
Proof.
  induction x as [|x0 xs IH]; [reflexivity|].
  destruct xs as [|x1 xs]; [reflexivity|].
  change (integrate.trapezoids (map (fun _ => 0) (x0 :: x1 :: xs))
            (x0 :: x1 :: xs))
    with ((x1 - x0) * (0 + 0) / 2
          + integrate.trapezoids (map (fun _ => 0) (x1 :: xs)) (x1 :: xs)).
  rewrite IH. lra.
Qed.

Lemma trapezoids_app (yl xl : R) (yo xo : list R) (xi : list R) :
  forall yi : list R,
    length yi = length xi ->
    integrate.trapezoids (yi ++ yl :: yo) (xi ++ xl :: xo)
    = integrate.trapezoids (yi ++ [yl]) (xi ++ [xl])
      + integrate.trapezoids (yl :: yo) (xl :: xo).
Proof.
  induction xi as [|x0 xi IH]; intros [|y0 yi] Hlen; simpl in Hlen;
    try discriminate.
  - simpl. lra.
  - specialize (IH yi ltac:(lia)).
    destruct xi as [|x1 xi]; destruct yi as [|y1 yi]; simpl in Hlen;
      try discriminate.
    + simpl app in *.
      change (integrate.trapezoids (y0 :: yl :: yo) (x0 :: xl :: xo))
        with ((xl - x0) * (yl + y0) / 2
              + integrate.trapezoids (yl :: yo) (xl :: xo)).
      simpl. lra.
    + simpl app in *.
      change (integrate.trapezoids (y0 :: y1 :: yi ++ yl :: yo)
                (x0 :: x1 :: xi ++ xl :: xo))
        with ((x1 - x0) * (y1 + y0) / 2
              + integrate.trapezoids (y1 :: yi ++ yl :: yo)
                  (x1 :: xi ++ xl :: xo)).
      change (integrate.trapezoids (y0 :: y1 :: yi ++ [yl])
                (x0 :: x1 :: xi ++ [xl]))
        with ((x1 - x0) * (y1 + y0) / 2
              + integrate.trapezoids (y1 :: yi ++ [yl]) (x1 :: xi ++ [xl])).
      rewrite IH. lra.
Qed.

(** X10: when the grid runs past the last sample with a non-null density
    (as [np.logspace(0, 7)] runs past [gamma_max]), the samples beyond it
    are not free: the trapezoid between the last sample inside, [(x, y)],
    and the first sample outside, [x'], adds [(x' - x) * y / 2] to the
    integral over the inner grid. *)
Theorem trapz_with_null_tail
  (y_in x_in x_out : list R) (y_last x_last x_next : R) :
  length y_in = length x_in ->
  integrate.total_density_check
    ((y_in ++ [y_last]) ++ map (fun _ => 0) (x_next :: x_out))
    ((x_in ++ [x_last]) ++ x_next :: x_out)
  = option_map (fun v => v + (x_next - x_last) * y_last / 2)
      (integrate.total_density_check (y_in ++ [y_last]) (x_in ++ [x_last])).
Proof.
  intros Hlen. unfold integrate.total_density_check.
  rewrite !trapz_same_length
    by (rewrite ?length_app, ?length_map; simpl; rewrite ?length_map; lia).
  simpl option_map. f_equal.
  rewrite <- !app_assoc. simpl app.
  rewrite trapezoids_app by exact Hlen. f_equal.
  change (integrate.trapezoids (y_last :: 0 :: map (fun _ => 0) x_out)
            (x_last :: x_next :: x_out))
    with ((x_next - x_last) * (0 + y_last) / 2
          + integrate.trapezoids (map (fun _ => 0) (x_next :: x_out))
              (x_next :: x_out)).
  rewrite trapezoids_zeros. lra.
Qed.

Lemma trapz_with_null_tail_witness :
  integrate.total_density_check (([1] ++ [1]) ++ map (fun _ => 0) [3; 4])
    (([0] ++ [1]) ++ [3; 4])
  = option_map (fun v => v + (3 - 1) * 1 / 2)
      (integrate.total_density_check ([1] ++ [1]) ([0] ++ [1])).
Proof.
  apply (trapz_with_null_tail [1] [0] [4] 1 1 3). reflexivity.
Defined.

Lemma last_default_irrelevant (l : list R) :
  forall x d d' : R, List.last (x :: l) d = List.last (x :: l) d'.
Proof.
  induction l as [|y l IH]; intros x d d'; [reflexivity|].
  change (List.last (y :: l) d = List.last (y :: l) d'). apply IH.
Qed.

Lemma last_cons (xs : list R) (x1 x0 : R) :
  List.last (x1 :: xs) x0 = List.last xs x1.
Proof.
  destruct xs as [|x2 xs]; [reflexivity|].
  change (List.last (x2 :: xs) x0 = List.last (x2 :: xs) x1).
  apply last_default_irrelevant.
Qed.

Lemma trapezoids_affine (a b : R) (xs : list R) :
  forall x0 : R,
    integrate.trapezoids (map (fun v => a * v + b) (x0 :: xs)) (x0 :: xs)
    = a * ((List.last xs x0) ^ 2 - x0 ^ 2) / 2 + b * (List.last xs x0 - x0).
Proof.
  induction xs as [|x1 xs IH]; intros x0.
  - simpl. lra.
  - change (integrate.trapezoids (map (fun v => a * v + b) (x0 :: x1 :: xs))
              (x0 :: x1 :: xs))
      with ((x1 - x0) * ((a * x1 + b) + (a * x0 + b)) / 2
            + integrate.trapezoids (map (fun v => a * v + b) (x1 :: xs))
                (x1 :: xs)).
    rewrite IH.
    rewrite (last_cons xs x1 x0). lra.
Qed.

(** X11: on any grid, [np.trapz] integrates a density that is affine in
    the grid variable exactly: for the samples of [a * x + b] it returns
    [a * (x_n^2 - x_0^2) / 2 + b * (x_n - x_0)], [x_0] and [x_n] being the
    first and the last grid value; in particular a constant density [b]
    gives [b * (x_n - x_0)]. *)
Theorem trapz_exact_on_affine (a b x0 : R) (xs : list R) :
  integrate.total_density_check (map (fun v => a * v + b) (x0 :: xs)) (x0 :: xs)
  = Some (a * ((List.last xs x0) ^ 2 - x0 ^ 2) / 2 + b * (List.last xs x0 - x0))
  /\ integrate.total_density_check (map (fun _ => b) (x0 :: xs)) (x0 :: xs)
     = Some (b * (List.last xs x0 - x0)).
Proof.
  unfold integrate.total_density_check.
  rewrite !trapz_same_length by now rewrite length_map.
  split.
  - now rewrite trapezoids_affine.
  - rewrite (map_ext (fun _ => b) (fun v => 0 * v + b)) by (intros; lra).
    rewrite trapezoids_affine. f_equal. lra.
Qed.

Lemma trapezoids_monotone (x : list R) :
  forall y y' : list R,
    Sorted Rle x -> Forall2 Rle y y' -> length y = length x ->
    integrate.trapezoids y x <= integrate.trapezoids y' x.
Proof.
  induction x as [|x0 xs IH]; intros y y' Hs Hy Hlen.
  - simpl. lra.
  - destruct Hy as [|y0 y0' ys ys' H0 Hys]; [simpl; lra|].
    destruct xs as [|x1 xs].
    + simpl. destruct ys, ys'; lra.
    + destruct Hys as [|y1 y1' ys ys' H1 Hys]; [simpl in Hlen; lia|].
      change (integrate.trapezoids (y0 :: y1 :: ys) (x0 :: x1 :: xs))
        with ((x1 - x0) * (y1 + y0) / 2
              + integrate.trapezoids (y1 :: ys) (x1 :: xs)).
      change (integrate.trapezoids (y0' :: y1' :: ys') (x0 :: x1 :: xs))
        with ((x1 - x0) * (y1' + y0') / 2
              + integrate.trapezoids (y1' :: ys') (x1 :: xs)).
      inversion Hs as [|? ? Hs' Hhd]; subst.
      inversion Hhd as [|? ? H01]; subst.
      assert (IH' := IH (y1 :: ys) (y1' :: ys') Hs'
                        ltac:(constructor; assumption)
                        ltac:(simpl in Hlen |- *; lia)).
      assert (Hd : 0 <= x1 - x0) by lra.
      assert (Hy01 : y1 + y0 <= y1' + y0') by lra.
      pose proof (Rmult_le_compat_l _ _ _ Hd Hy01). lra.
Qed.

(** X12: on a non-decreasing grid the total-density check is monotone in
    the density: densities that are nowhere smaller give an integral that
    is not smaller, and a density that is nowhere negative gives a
    non-negative integral. *)
Theorem total_density_check_monotone (y y' x : list R) :
  Sorted Rle x -> length y = length x -> Forall2 Rle y y' ->
  exists v v' : R,
    integrate.total_density_check y x = Some v
    /\ integrate.total_density_check y' x = Some v'
    /\ v <= v'
    /\ (Forall (fun d => 0 <= d) y -> 0 <= v).
Proof.
  intros Hs Hlen Hy.
  assert (Hlen' : length y' = length x).
  { rewrite <- Hlen. symmetry. eapply Forall2_length, Hy. }
  exists (integrate.trapezoids y x), (integrate.trapezoids y' x).
  unfold integrate.total_density_check.
  rewrite !trapz_same_length by assumption.
  split; [reflexivity|]. split; [reflexivity|]. split.
  - now apply trapezoids_monotone.
  - intros Hpos. rewrite <- (trapezoids_zeros x).
    apply trapezoids_monotone; [exact Hs| |now rewrite length_map].
    clear Hy Hlen' y'. revert x Hlen Hs.
    induction Hpos as [|d y Hd _ IH]; intros [|x0 xs] Hlen Hs;
      simpl in Hlen; try discriminate; simpl; constructor.
    + exact Hd.
    + apply IH; [lia|]. now inversion Hs.
Qed.

Lemma total_density_check_monotone_witness :
  exists v v' : R,
    integrate.total_density_check [1; 2] [0; 1] = Some v
    /\ integrate.total_density_check [2; 2] [0; 1] = Some v'
    /\ v <= v'
    /\ (Forall (fun d => 0 <= d) [1; 2] -> 0 <= v).
Proof.
  apply (total_density_check_monotone [1; 2] [2; 2] [0; 1]).
  - repeat constructor. lra.
  - reflexivity.
  - repeat constructor; lra.
Defined.

(** ** The curves along a grid *)

(** X13: along every grid [np.logspace(start, stop, num)] with
    [start < stop], both attenuation curves strictly decrease: a later
    sample of the optical depth has a smaller external factor and a
    smaller internal factor. *)
Theorem attenuation_curves_decrease_along_logspace
  (start stop : R) (num i j : nat) (e e' : R) (h h' : option R) :
  start < stop -> (i < j)%nat ->
  attenuation_external (np.logspace start stop num) !! i = Some e ->
  attenuation_external (np.logspace start stop num) !! j = Some e' ->
  attenuation_internal (np.logspace start stop num) !! i = Some h ->
  attenuation_internal (np.logspace start stop num) !! j = Some h' ->
  e' < e
  /\ exists v v' : R, h = Some v /\ h' = Some v' /\ v' < v.
Proof.
  intros Hab Hij He He' Hh Hh'.
  rewrite attenuation_external_map, list_lookup_fmap in He, He'.
  rewrite attenuation_internal_map, list_lookup_fmap in Hh, Hh'.
  destruct (np.logspace start stop num !! i) as [t|] eqn:Hi; [|discriminate].
  destruct (np.logspace start stop num !! j) as [t'|] eqn:Hj; [|discriminate].
  simpl in He, He', Hh, Hh'.
  injection He as <-. injection He' as <-.
  injection Hh as <-. injection Hh' as <-.
  assert (Hlt : t < t').
  { exact (proj1 (proj2 (proj2 (proj2 (logspace_grid start stop num))))
             Hab i j t t' Hij Hi Hj). }
  assert (Hpos : 0 < t).
  { pose proof (logspace_pos start stop num) as Hall.
    rewrite Forall_forall in Hall. apply Hall.
    eapply list_elem_of_lookup_2, Hi. }
  split.
  - unfold external_factor. apply exp_increasing. lra.
  - exists ((1 - exp (- t)) / t), ((1 - exp (- t')) / t').
    rewrite !internal_factor_pos by lra.
    split; [reflexivity|]. split; [reflexivity|].
    now apply internal_value_decreasing.
Qed.

Lemma attenuation_curves_decrease_along_logspace_witness :
  external_factor 10 < external_factor (1 / 10)
  /\ exists v v' : R,
      internal_factor (1 / 10) = Some v /\ internal_factor 10 = Some v'
      /\ v' < v.
Proof.
  apply (attenuation_curves_decrease_along_logspace (-1) 1 2 0 1
           (external_factor (1 / 10)) (external_factor 10)
           (internal_factor (1 / 10)) (internal_factor 10)).
  - lra.
  - lia.
  - rewrite attenuation_external_map, list_lookup_fmap, logspace_lookup by lia.
    simpl. do 2 f_equal.
    replace (-1 + 0 * ((1 - -1) / 1)) with (-1) by lra. apply Rpower_10_m1.
  - rewrite attenuation_external_map, list_lookup_fmap, logspace_lookup by lia.
    simpl. do 2 f_equal.
    replace (-1 + 1 * ((1 - -1) / 1)) with 1 by lra. apply Rpower_1. lra.
  - rewrite attenuation_internal_map, list_lookup_fmap, logspace_lookup by lia.
    simpl. do 2 f_equal.
    replace (-1 + 0 * ((1 - -1) / 1)) with (-1) by lra. apply Rpower_10_m1.
  - rewrite attenuation_internal_map, list_lookup_fmap, logspace_lookup by lia.
    simpl. do 2 f_equal.
    replace (-1 + 1 * ((1 - -1) / 1)) with 1 by lra. apply Rpower_1. lra.
Defined.

(** ** Columns of a loaded table *)

(** X14: on a two-dimensional array with two columns, [data[:, 0]] and
    [data[:, 1]] both succeed, have one entry per row, and pair up again
    to the rows of the array; a column index beyond the last column and
    any column of a one-dimensional array raise. *)
Theorem columns_of_two_column_table (rows : list (list R)) :
  table.rectangular (table.array2 2 rows) ->
  (exists c0 c1 : list R,
      table.column (table.array2 2 rows) 0 = Some c0
      /\ table.column (table.array2 2 rows) 1 = Some c1
      /\ length c0 = length rows /\ length c1 = length rows
      /\ zip_with (fun a b => [a; b]) c0 c1 = rows)
  /\ (forall j : nat, (2 <= j)%nat ->
        table.column (table.array2 2 rows) j = None)
  /\ (forall (values : list R) (j : nat),
        table.column (table.array1 values) j = None).
Proof.
  intros Hrect. simpl in Hrect. split; [|split].
  - unfold table.column. simpl.
    induction Hrect as [|row rows Hrow _ IH].
    + exists [], []. repeat split.
    + destruct IH as [c0 [c1 [H0 [H1 [L0 [L1 Hz]]]]]].
      destruct row as [|a [|b [|c row]]]; simpl in Hrow; try discriminate.
      exists (a :: c0), (b :: c1).
      simpl in H0, H1 |- *. rewrite H0, H1. simpl.
      repeat split; try (f_equal; assumption).
  - intros j Hj. unfold table.column.
    destruct (Nat.ltb_spec j 2) as [Hlt|_]; [lia|reflexivity].
  - reflexivity.
Qed.

Lemma columns_of_two_column_table_witness :
  exists c0 c1 : list R,
    table.column (table.array2 2 [[1; 2]; [3; 4]]) 0 = Some c0
    /\ table.column (table.array2 2 [[1; 2]; [3; 4]]) 1 = Some c1
    /\ length c0 = length [[1; 2]; [3; 4]]
    /\ length c1 = length [[1; 2]; [3; 4]]
    /\ zip_with (fun a b => [a; b]) c0 c1 = [[1; 2]; [3; 4]].
Proof.
  apply (proj1 (columns_of_two_column_table [[1; 2]; [3; 4]]
                  ltac:(repeat constructor))).
Defined.
